(** * The environment configuration of the coffee-shop front end

    Source: [frontend/src/environments/environment.ts].  The file holds one
    statement, [export const environment = { ... }], an object literal of
    boolean and string literals with one nested object literal.

    The development has four parts:
    - [JS]: the fragment of JavaScript values the literal lives in, with
      property reads that can raise;
    - [Env]: the literal itself, its declared shape and the string
      predicates used on its fields;
    - [Json]: the text form of such values (stringify and parse);
    - [Process]: the object as it lives in a running process, a store
      cell behind a [const] binding that consumers read.

    Definitions come first, then the facts about them. *)

From Stdlib Require Import String Ascii List Bool Arith Lia.
From stdpp Require Import base option list strings.

Set Warnings "-register-all".
Local Open Scope string_scope.
Local Open Scope list_scope.

(** ** JavaScript values *)

Module JS.

(** The values an object literal of boolean and string literals can
    evaluate to, together with the two absent values [undefined] and
    [null].  An object is the list of its own properties in insertion
    order (the language lists names that are array indices first; the
    source file has none).  Strings are sequences of 8-bit characters:
    every string of the source file is ASCII. *)
Inductive value : Type :=
| VUndefined
| VNull
| VBool (b : bool)
| VStr (s : string)
| VObj (fields : list (string * value)).

(** The [typeof] operator. *)
Definition typeof (v : value) : string :=
  match v with
  | VUndefined => "undefined"
  | VNull => "object"
  | VBool _ => "boolean"
  | VStr _ => "string"
  | VObj _ => "object"
  end.

(** [v == null] in JavaScript: the value is [null] or [undefined]. *)
Definition is_nullish (v : value) : bool :=
  match v with
  | VUndefined | VNull => true
  | _ => false
  end.

(** What a read can raise. *)
Inductive error : Type :=
| TypeError.

Inductive result (A : Type) : Type :=
| Ok (a : A)
| Throw (e : error).
Arguments Ok {A} a.
Arguments Throw {A} e.

Definition bind {A B} (r : result A) (k : A -> result B) : result B :=
  match r with
  | Ok a => k a
  | Throw e => Throw e
  end.

Notation "'let!' x ':=' r 'in' k" := (bind r (fun x => k))
  (at level 10, x name, r at level 100, k at level 200).

(** Own-property lookup in a property list. *)
Fixpoint lookup_field (k : string) (fs : list (string * value)) : option value :=
  match fs with
  | [] => None
  | (k', v) :: fs' => if String.eqb k k' then Some v else lookup_field k fs'
  end.

(** The member expression [base.k].  Reading a property of [undefined] or
    [null] raises a [TypeError]; a property an object does not have reads as
    [undefined].  A boolean or a string is read through its wrapper object;
    the members of the wrappers ([length], the character indices, the
    methods) are outside this fragment, and every other name reads as
    [undefined]. *)
Definition get (base : value) (k : string) : result value :=
  match base with
  | VUndefined | VNull => Throw TypeError
  | VBool _ | VStr _ => Ok VUndefined
  | VObj fs => Ok (default VUndefined (lookup_field k fs))
  end.

(** The member chain [base.k1.k2...kn], read left to right. *)
Fixpoint get_path (base : value) (p : list string) : result value :=
  match p with
  | [] => Ok base
  | k :: p' => let! v := get base k in get_path v p'
  end.

(** The own property names of a value, in order ([Object.keys]). *)
Definition keys (v : value) : list string :=
  match v with
  | VObj fs => map fst fs
  | _ => []
  end.

(** Deep equality: same kind of value, equal primitives, and for objects
    the same number of properties with deep-equal values under each name.
    The order of the properties does not matter. *)
Fixpoint deep_equal (v w : value) : bool :=
  match v, w with
  | VUndefined, VUndefined => true
  | VNull, VNull => true
  | VBool a, VBool b => Bool.eqb a b
  | VStr s, VStr t => String.eqb s t
  | VObj fs, VObj gs =>
      Nat.eqb (length fs) (length gs) &&
      (fix all (fs : list (string * value)) : bool :=
         match fs with
         | [] => true
         | (k, x) :: fs' =>
             match lookup_field k gs with
             | Some y => deep_equal x y && all fs'
             | None => false
             end
         end) fs
  | _, _ => false
  end.

End JS.

(** ** The exported constant *)

Module Env.
Import JS.

(** [export const environment = { ... }], field by field as in the source. *)
Definition environment : value :=
  VObj
    [ ("production", VBool false);
      ("apiServerUrl", VStr "http://127.0.0.1:5000");
      ("auth0",
        VObj
          [ ("url", VStr "dev-6wikmw4d.us.auth0.com");
            ("audience", VStr "coffee_shop");
            ("clientId", VStr "I0sxOj09Gcl40n2FYKcZZuiN0HA9US1b");
            ("callbackURL", VStr "http://localhost:8100") ]) ].

(** *** The declared shape *)

(** The types of the fragment: [boolean], [string] and object types with
    named, typed properties. *)
Inductive ty : Type :=
| TBoolean
| TString
| TObject (props : list (string * ty)).

(** The shape consumers rely on, written as the specification declares
    it (section 6, "Expected shape"):
<<
    production:    boolean
    apiServerUrl:  string
    auth0:
      url, audience, clientId, callbackURL:  string
>>
    This definition follows the specification; it is compared below with
    the value and with the type inferred from the source literal. *)
Definition EnvironmentConfig : ty :=
  TObject
    [ ("production", TBoolean);
      ("apiServerUrl", TString);
      ("auth0",
        TObject
          [ ("url", TString);
            ("audience", TString);
            ("clientId", TString);
            ("callbackURL", TString) ]) ].

(** [has_type v t]: the value [v] has exactly the shape [t].  An object has
    the properties of the type, under the same names, each of the declared
    type, and no others.  Neither [undefined] nor [null] has any of these
    types. *)
Fixpoint has_type (v : value) (t : ty) {struct t} : bool :=
  match t, v with
  | TBoolean, VBool _ => true
  | TString, VStr _ => true
  | TObject ps, VObj fs =>
      (fix props (ps : list (string * ty)) (fs : list (string * value)) : bool :=
         match ps, fs with
         | [], [] => true
         | (k, t') :: ps', (k', v') :: fs' =>
             String.eqb k k' && has_type v' t' && props ps' fs'
         | _, _ => false
         end) ps fs
  | _, _ => false
  end.

(** The type the compiler infers for a [const] initialised with a literal
    of this fragment: literals widen to [boolean] and [string], an object
    literal gets the object type of its properties.  The absent values have
    no type of the fragment. *)
Fixpoint infer (v : value) : option ty :=
  match v with
  | VUndefined | VNull => None
  | VBool _ => Some TBoolean
  | VStr _ => Some TString
  | VObj fs =>
      option_map TObject
        ((fix props (fs : list (string * value)) : option (list (string * ty)) :=
            match fs with
            | [] => Some []
            | (k, x) :: fs' =>
                match infer x, props fs' with
                | Some t, Some ps => Some ((k, t) :: ps)
                | _, _ => None
                end
            end) fs)
  end.

(** What [typeof] answers for a value of a type. *)
Definition type_name (t : ty) : string :=
  match t with
  | TBoolean => "boolean"
  | TString => "string"
  | TObject _ => "object"
  end.

(** Every field a type declares, with the member chain that reaches it and
    its declared type; nested records come before their own fields. *)
Fixpoint declared (t : ty) : list (list string * ty) :=
  match t with
  | TObject ps =>
      (fix props (ps : list (string * ty)) : list (list string * ty) :=
         match ps with
         | [] => []
         | (k, t') :: ps' =>
             (([k], t') :: map (fun '(p, u) => (k :: p, u)) (declared t'))
               ++ props ps'
         end) ps
  | _ => []
  end.

(** *** The fields of a value *)

(** Every primitive field of a value with the member chain that reaches
    it, in source order. *)
Fixpoint leaves (v : value) : list (list string * value) :=
  match v with
  | VObj fs =>
      (fix props (fs : list (string * value)) : list (list string * value) :=
         match fs with
         | [] => []
         | (k, x) :: fs' =>
             map (fun '(p, y) => (k :: p, y)) (leaves x) ++ props fs'
         end) fs
  | _ => [([], v)]
  end.

(** Every member chain that reaches a node of a value, the empty chain
    (the value itself) first. *)
Fixpoint paths (v : value) : list (list string) :=
  [] ::
  match v with
  | VObj fs =>
      (fix props (fs : list (string * value)) : list (list string) :=
         match fs with
         | [] => []
         | (k, x) :: fs' => map (cons k) (paths x) ++ props fs'
         end) fs
  | _ => []
  end.

(** The fields that hold a string. *)
Definition string_fields (v : value) : list (list string * string) :=
  omap (fun '(p, x) => match x with VStr s => Some (p, s) | _ => None end)
       (leaves v).

(** *** String predicates *)

(** [s.startsWith(p)]. *)
Definition startsWith (s p : string) : bool := String.prefix p s.

(** [s.endsWith(p)]. *)
Definition endsWith (s p : string) : bool :=
  Nat.leb (String.length p) (String.length s) &&
  String.eqb
    (String.substring (String.length s - String.length p) (String.length p) s) p.

(** A string that carries one of the two web schemes. *)
Definition has_scheme (s : string) : bool :=
  startsWith s "http://" || startsWith s "https://".

(** The characters of a host name: letters, digits, hyphen and dot. *)
Definition is_domain_char (c : ascii) : bool :=
  let n := nat_of_ascii c in
  (Nat.leb 97 n && Nat.leb n 122) || (Nat.leb 65 n && Nat.leb n 90) ||
  (Nat.leb 48 n && Nat.leb n 57) || Nat.eqb n 45 || Nat.eqb n 46.

Definition is_bare_domain (s : string) : bool :=
  negb (String.eqb s "") && forallb is_domain_char (list_ascii_of_string s).

End Env.

(** ** JSON text *)

(** The source file has no serializer and no parser of its own.  The
    transport format of the specification's round-trip property is taken
    to be JSON text, written and read as [JSON.stringify] and [JSON.parse]
    do on the values of the fragment. *)
Module Json.
Import JS.

Definition quote_char : ascii := "034"%char.
Definition backslash : ascii := "092"%char.

Definition hex_digit (n : nat) : ascii :=
  nth n (list_ascii_of_string "0123456789abcdef") "0"%char.

(** One character of a string literal, as [JSON.stringify] writes it: the
    quote and the backslash are escaped, the control characters get their
    short escape or [\u00xx]. *)
Definition escape_char (c : ascii) : string :=
  let n := nat_of_ascii c in
  if Nat.eqb n 34 then String backslash (String quote_char "")
  else if Nat.eqb n 92 then String backslash (String backslash "")
  else if Nat.eqb n 8 then String backslash "b"
  else if Nat.eqb n 9 then String backslash "t"
  else if Nat.eqb n 10 then String backslash "n"
  else if Nat.eqb n 12 then String backslash "f"
  else if Nat.eqb n 13 then String backslash "r"
  else if Nat.ltb n 32 then
    String backslash
      ("u00" +:+ String (hex_digit (n / 16)) (String (hex_digit (n mod 16)) ""))
  else String c "".

Fixpoint escape (s : string) : string :=
  match s with
  | EmptyString => ""
  | String c s' => escape_char c +:+ escape s'
  end.

Definition quote (s : string) : string :=
  String quote_char (escape s +:+ String quote_char "").

Fixpoint join (sep : string) (l : list string) : string :=
  match l with
  | [] => ""
  | [x] => x
  | x :: l' => x +:+ sep +:+ join sep l'
  end.

(** Modelled from the spec: the serializer of "serializing the structure
    to a transport format", which the repository does not contain.
    [JSON.stringify(v)] without indentation.  [undefined] has no text: at
    the top the result is [undefined] (here [None]), and a property whose
    value is [undefined] is left out of its object. *)
Fixpoint stringify (v : value) : option string :=
  match v with
  | VUndefined => None
  | VNull => Some "null"
  | VBool true => Some "true"
  | VBool false => Some "false"
  | VStr s => Some (quote s)
  | VObj fs =>
      Some ("{" +:+
            join ","
              ((fix members (fs : list (string * value)) : list string :=
                  match fs with
                  | [] => []
                  | (k, x) :: fs' =>
                      match stringify x with
                      | Some t => (quote k +:+ ":" +:+ t) :: members fs'
                      | None => members fs'
                      end
                  end) fs) +:+
            "}")
  end.

(** *** Parsing *)

Definition is_ws (c : ascii) : bool :=
  let n := nat_of_ascii c in
  Nat.eqb n 32 || Nat.eqb n 9 || Nat.eqb n 10 || Nat.eqb n 13.

Fixpoint skip_ws (cs : list ascii) : list ascii :=
  match cs with
  | c :: cs' => if is_ws c then skip_ws cs' else cs
  | [] => []
  end.

Fixpoint strip_prefix (p cs : list ascii) : option (list ascii) :=
  match p, cs with
  | [], _ => Some cs
  | a :: p', c :: cs' => if Ascii.eqb a c then strip_prefix p' cs' else None
  | _ :: _, [] => None
  end.

Definition hex_value (c : ascii) : option nat :=
  let n := nat_of_ascii c in
  if Nat.leb 48 n && Nat.leb n 57 then Some (n - 48)
  else if Nat.leb 97 n && Nat.leb n 102 then Some (n - 87)
  else if Nat.leb 65 n && Nat.leb n 70 then Some (n - 55)
  else None.

(** The character an escape sequence stands for; [cs] is the input after
    the backslash.  A [\uXXXX] escape above 255 has no character in 8-bit
    strings and is refused. *)
Definition unescape (cs : list ascii) : option (ascii * list ascii) :=
  match cs with
  | [] => None
  | e :: r =>
      let n := nat_of_ascii e in
      if Nat.eqb n 34 then Some (quote_char, r)
      else if Nat.eqb n 92 then Some (backslash, r)
      else if Nat.eqb n 47 then Some ("/"%char, r)
      else if Nat.eqb n 98 then Some ("008"%char, r)
      else if Nat.eqb n 116 then Some ("009"%char, r)
      else if Nat.eqb n 110 then Some ("010"%char, r)
      else if Nat.eqb n 102 then Some ("012"%char, r)
      else if Nat.eqb n 114 then Some ("013"%char, r)
      else if Nat.eqb n 117 then
        match r with
        | h1 :: h2 :: h3 :: h4 :: r' =>
            match hex_value h1, hex_value h2, hex_value h3, hex_value h4 with
            | Some a, Some b, Some c, Some d =>
                let code := ((a * 16 + b) * 16 + c) * 16 + d in
                if Nat.ltb code 256 then Some (ascii_of_nat code, r') else None
            | _, _, _, _ => None
            end
        | _ => None
        end
      else None
  end.

(** The characters of a string literal up to its closing quote; [cs] is
    the input after the opening quote.  A bare control character is not
    allowed inside a string. *)
Fixpoint parse_chars (fuel : nat) (cs : list ascii) : option (string * list ascii) :=
  match fuel with
  | 0 => None
  | S f =>
      match cs with
      | [] => None
      | c :: r =>
          if Ascii.eqb c quote_char then Some ("", r)
          else if Ascii.eqb c backslash then
            match unescape r with
            | Some (x, r') =>
                match parse_chars f r' with
                | Some (s, r'') => Some (String x s, r'')
                | None => None
                end
            | None => None
            end
          else if Nat.ltb (nat_of_ascii c) 32 then None
          else
            match parse_chars f r with
            | Some (s, r') => Some (String c s, r')
            | None => None
            end
      end
  end.

(** Defining a property while an object is built: a name seen before keeps
    its place and takes the new value, a new name goes to the end. *)
Fixpoint set_field {A} (k : string) (v : A) (fs : list (string * A)) : list (string * A) :=
  match fs with
  | [] => [(k, v)]
  | (k', v') :: fs' =>
      if String.eqb k k' then (k, v) :: fs' else (k', v') :: set_field k v fs'
  end.

(** One JSON value at the head of the input, and what follows it.  The
    grammar is JSON's for the values of the fragment: [null], [true],
    [false], strings and objects (numbers and arrays are refused). *)
Fixpoint parse_value (fuel : nat) (cs : list ascii) : option (value * list ascii) :=
  match fuel with
  | 0 => None
  | S f =>
      match skip_ws cs with
      | [] => None
      | c :: r =>
          if Ascii.eqb c quote_char then
            match parse_chars f r with
            | Some (s, r') => Some (VStr s, r')
            | None => None
            end
          else if Ascii.eqb c "{"%char then
            match skip_ws r with
            | [] => None
            | c' :: r' =>
                if Ascii.eqb c' "}"%char then Some (VObj [], r')
                else parse_members f (c' :: r') []
            end
          else
            match strip_prefix (list_ascii_of_string "null") (c :: r) with
            | Some r' => Some (VNull, r')
            | None =>
                match strip_prefix (list_ascii_of_string "true") (c :: r) with
                | Some r' => Some (VBool true, r')
                | None =>
                    match strip_prefix (list_ascii_of_string "false") (c :: r) with
                    | Some r' => Some (VBool false, r')
                    | None => None
                    end
                end
            end
      end
  end
with parse_members (fuel : nat) (cs : list ascii) (acc : list (string * value))
  : option (value * list ascii) :=
  match fuel with
  | 0 => None
  | S f =>
      match skip_ws cs with
      | [] => None
      | c :: r =>
          if Ascii.eqb c quote_char then
            match parse_chars f r with
            | None => None
            | Some (k, r1) =>
                match skip_ws r1 with
                | [] => None
                | c1 :: r2 =>
                    if Ascii.eqb c1 ":"%char then
                      match parse_value f r2 with
                      | None => None
                      | Some (v, r3) =>
                          let acc' := set_field k v acc in
                          match skip_ws r3 with
                          | [] => None
                          | c3 :: r4 =>
                              if Ascii.eqb c3 ","%char then parse_members f r4 acc'
                              else if Ascii.eqb c3 "}"%char then Some (VObj acc', r4)
                              else None
                          end
                      end
                    else None
                end
            end
          else None
      end
  end.

(** Modelled from the spec: the parser of "parsing it back", which the
    repository does not contain.
    [JSON.parse(s)]: one value, then nothing but white space.  [None] is
    the [SyntaxError]. *)
Definition parse (s : string) : option value :=
  match parse_value (S (String.length s)) (list_ascii_of_string s) with
  | Some (v, r) =>
      match skip_ws r with
      | [] => Some v
      | _ :: _ => None
      end
  | None => None
  end.

(** *** Plain data *)

(** Plain data: no [undefined] anywhere, and no object with two properties
    of the same name. *)
Fixpoint is_plain (v : value) : bool :=
  match v with
  | VUndefined => false
  | VNull | VBool _ | VStr _ => true
  | VObj fs =>
      (fix props (fs : list (string * value)) : bool :=
         match fs with
         | [] => true
         | (k, x) :: fs' =>
             negb (existsb (String.eqb k) (map fst fs')) && is_plain x && props fs'
         end) fs
  end.

(** The check [is_plain] makes on the properties of an object. *)
Definition plain_members (fs : list (string * value)) : bool :=
  (fix props (fs : list (string * value)) : bool :=
     match fs with
     | [] => true
     | (k, x) :: fs' =>
         negb (existsb (String.eqb k) (map fst fs')) && is_plain x && props fs'
     end) fs.

(** The text of the properties of an object, one entry per property that
    has a text. *)
Definition member_texts (fs : list (string * value)) : list string :=
  omap (fun '(k, x) =>
          match stringify x with
          | Some t => Some (quote k +:+ ":" +:+ t)
          | None => None
          end) fs.

(** Fuel that is enough to parse the text of a value back. *)
Fixpoint need (v : value) : nat :=
  match v with
  | VStr s => 2 + String.length s
  | VObj fs =>
      S ((fix props (fs : list (string * value)) : nat :=
            match fs with
            | [] => 0
            | (k, x) :: fs' => 2 + String.length k + need x + props fs'
            end) fs)
  | _ => 1
  end.

Definition need_members (fs : list (string * value)) : nat :=
  list_sum (map (fun '(k, x) => 2 + String.length k + need x) fs).

(** Serialize, then parse what was written. *)
Definition roundtrip (v : value) : option value :=
  match stringify v with
  | Some s => parse s
  | None => None
  end.

End Json.

(** ** The constant in a running process *)

Module Process.
Import JS Env.

(** Objects live in a store and are handled through references; two reads
    return the identical object when they return the same reference. *)
Definition loc : Type := nat.

Inductive hval : Type :=
| HUndefined
| HNull
| HBool (b : bool)
| HStr (s : string)
| HRef (l : loc).

Definition object : Type := list (string * hval).
Definition heap : Type := list object.

(** Evaluating a literal: primitives are themselves, an object literal
    evaluates its property values in order and allocates one fresh object
    holding them. *)
Fixpoint alloc (v : value) (h : heap) : heap * hval :=
  match v with
  | VUndefined => (h, HUndefined)
  | VNull => (h, HNull)
  | VBool b => (h, HBool b)
  | VStr s => (h, HStr s)
  | VObj fs =>
      let '(h', o) :=
        (fix props (fs : list (string * value)) (h : heap) : heap * object :=
           match fs with
           | [] => (h, [])
           | (k, x) :: fs' =>
               let '(h1, y) := alloc x h in
               let '(h2, o) := props fs' h1 in
               (h2, (k, y) :: o)
           end) fs h in
      (h' ++ [o], HRef (length h'))
  end.

(** A module instance: the store, and the binding [environment].  The
    binding is declared [const] and importers cannot assign to an import,
    so no step below changes it. *)
Record state : Type := State {
  store : heap;
  binding : hval
}.

(** Loading the module evaluates its only statement. *)
Definition load : state :=
  let '(h, r) := alloc environment [] in State h r.

Fixpoint lookup_prop (k : string) (o : object) : option hval :=
  match o with
  | [] => None
  | (k', v) :: o' => if String.eqb k k' then Some v else lookup_prop k o'
  end.

(** [base.k] on store values.  A reference always points into the store;
    the last case is there to keep the function total. *)
Definition hget (h : heap) (base : hval) (k : string) : result hval :=
  match base with
  | HUndefined | HNull => Throw TypeError
  | HBool _ | HStr _ => Ok HUndefined
  | HRef l =>
      match h !! l with
      | Some o => Ok (default HUndefined (lookup_prop k o))
      | None => Throw TypeError
      end
  end.

Fixpoint hget_path (h : heap) (base : hval) (p : list string) : result hval :=
  match p with
  | [] => Ok base
  | k :: p' => let! v := hget h base k in hget_path h v p'
  end.

(** [base.k = v] in module (strict) code: only an object takes the
    property, every other base raises. *)
Definition hset (h : heap) (base : hval) (k : string) (v : hval) : result heap :=
  match base with
  | HRef l =>
      match h !! l with
      | Some o => Ok (<[l := Json.set_field k v o]> h)
      | None => Throw TypeError
      end
  | _ => Throw TypeError
  end.

(** The deep value behind a store value, as a consumer walking the object
    sees it.  The fuel bounds the depth; a cyclic object has no finite deep
    value. *)
Fixpoint snapshot (fuel : nat) (h : heap) (v : hval) : option value :=
  match fuel with
  | 0 => None
  | S f =>
      match v with
      | HUndefined => Some VUndefined
      | HNull => Some VNull
      | HBool b => Some (VBool b)
      | HStr s => Some (VStr s)
      | HRef l =>
          match h !! l with
          | None => None
          | Some o =>
              option_map VObj
                ((fix props (o : object) : option (list (string * value)) :=
                    match o with
                    | [] => Some []
                    | (k, x) :: o' =>
                        match snapshot f h x, props o' with
                        | Some y, Some fs => Some ((k, y) :: fs)
                        | _, _ => None
                        end
                    end) o)
          end
      end
  end.

(** What consumers can do with the import.  The source file exports a
    plain object, neither frozen nor typed [readonly], so the language
    lets a consumer assign to its properties; the specification's
    read-only contract asks consumers not to. *)
Inductive action : Type :=
| Read (p : list string)                    (* [environment.p1. ... .pn]; [Read []] reads the binding *)
| Assign (p : list string) (k : string) (v : hval). (* [environment.p1. ... .pn.k = v] *)

Definition consumer : Type := nat.

(** What one action shows to the consumer that ran it: the value (or the
    exception) of the expression, and the deep value behind it at that
    moment. *)
Record observation : Type := Obs {
  returned : result hval;
  seen : option value
}.

Definition observe (h : heap) (r : result hval) : observation :=
  Obs r (match r with
         | Ok v => snapshot (S (length h)) h v
         | Throw _ => None
         end).

Definition step (st : state) (a : action) : state * observation :=
  match a with
  | Read p => (st, observe (store st) (hget_path (store st) (binding st) p))
  | Assign p k v =>
      match hget_path (store st) (binding st) p with
      | Throw e => (st, observe (store st) (Throw e))
      | Ok base =>
          match hset (store st) base k v with
          | Throw e => (st, observe (store st) (Throw e))
          | Ok h' => (State h' (binding st), observe h' (Ok v))
          end
      end
  end.

(** A trace of actions by any number of consumers, run in order. *)
Fixpoint run (st : state) (tr : list (consumer * action)) : state * list observation :=
  match tr with
  | [] => (st, [])
  | (_, a) :: tr' =>
      let '(st1, o) := step st a in
      let '(st2, os) := run st1 tr' in
      (st2, o :: os)
  end.

Definition is_read (a : action) : bool :=
  match a with
  | Read _ => true
  | Assign _ _ _ => false
  end.

(** The read-only contract: no consumer assigns. *)
Definition read_only (tr : list (consumer * action)) : bool :=
  forallb (fun ca => is_read (snd ca)) tr.

End Process.

Import JS Env Json Process.

(** ** Facts about the process model *)

Section ProcessFacts.

Lemma step_binding (st : state) (a : action) :
  binding (step st a).1 = binding st.
Proof.
  destruct a as [p | p k v]; simpl; [reflexivity |].
  destruct (hget_path (store st) (binding st) p) as [base | e]; simpl; [| reflexivity].
  destruct (hset (store st) base k v); reflexivity.
Qed.

Lemma step_read (st : state) (p : list string) :
  (step st (Read p)).1 = st.
Proof. reflexivity. Qed.

(** The observation at position [i] of a trace is the one of its action,
    taken in a state with the same binding; in a read-only trace that
    state is the initial one. *)
Lemma run_lookup (tr : list (consumer * action)) :
  forall (st : state) (i : nat) (c : consumer) (a : action),
    tr !! i = Some (c, a) ->
    exists st',
      (run st tr).2 !! i = Some (step st' a).2 /\
      binding st' = binding st /\
      (read_only tr = true -> st' = st).
Proof.
  induction tr as [| [c0 a0] tr IH]; intros st i c a Hi.
  - destruct i; discriminate.
  - simpl. destruct (step st a0) as [st1 o] eqn:Hstep.
    destruct (run st1 tr) as [st2 os] eqn:Hrun.
    destruct i as [| i]; simpl in Hi.
    + injection Hi as -> ->. exists st. rewrite Hstep. auto.
    + destruct (IH st1 i c a Hi) as (st' & Hobs & Hb & Hro).
      rewrite Hrun in Hobs. exists st'. split; [exact Hobs |]. split.
      * rewrite Hb. change st1 with (st1, o).1. rewrite <- Hstep. apply step_binding.
      * simpl. intros [Ha0 Htr]%andb_true_iff.
        destruct a0 as [p0 |]; [| discriminate].
        rewrite (Hro Htr). change st1 with (st1, o).1. rewrite <- Hstep. reflexivity.
Qed.

Lemma run_length (tr : list (consumer * action)) :
  forall st : state, length (run st tr).2 = length tr.
Proof.
  induction tr as [| [c a] tr IH]; intros st; simpl; [reflexivity |].
  destruct (step st a) as [st1 o]. specialize (IH st1).
  destruct (run st1 tr) as [st2 os]. simpl in *. congruence.
Qed.

End ProcessFacts.

(** ** Parsing undoes serializing on plain data *)

Section RoundTrip.

Local Abbreviation chars := list_ascii_of_string.

Lemma chars_app (a b : string) : chars (a +:+ b) = chars a ++ chars b.
Proof. induction a as [| c a IH]; simpl; [reflexivity | now rewrite IH]. Qed.

Lemma length_append (a b : string) :
  String.length (a +:+ b) = String.length a + String.length b.
Proof. induction a as [| c a IH]; simpl; [reflexivity | now rewrite IH]. Qed.

(** Nested induction on values. *)
Lemma value_nested_ind (P : value -> Prop) :
  P VUndefined -> P VNull -> (forall b, P (VBool b)) -> (forall s, P (VStr s)) ->
  (forall fs, Forall (fun kv => P kv.2) fs -> P (VObj fs)) ->
  forall v, P v.
Proof.
  intros Hu Hn Hb Hs Ho.
  fix IH 1. intros [| | b | s | fs].
  - exact Hu.
  - exact Hn.
  - exact (Hb b).
  - exact (Hs s).
  - apply Ho. induction fs as [| [k x] fs IHfs].
    + apply Forall_nil_2.
    + apply Forall_cons_2; [exact (IH x) | exact IHfs].
Qed.

(** One character written by [escape_char] is read back as itself, at the
    cost of one unit of fuel. *)
Lemma parse_chars_escape_char (c : ascii) (f : nat) (r : list ascii) :
  parse_chars (S f) (chars (escape_char c) ++ r) =
  match parse_chars f r with
  | Some (s, r') => Some (String c s, r')
  | None => None
  end.
Proof.
  destruct c as [[] [] [] [] [] [] [] []]; reflexivity.
Qed.

Lemma parse_chars_escape (s : string) :
  forall (f : nat) (r : list ascii),
    String.length s < f ->
    parse_chars f (chars (escape s) ++ quote_char :: r) = Some (s, r).
Proof.
  induction s as [| c s IH]; intros f r Hf.
  - destruct f; [lia | reflexivity].
  - destruct f; [lia |]. simpl in Hf.
    simpl escape. rewrite chars_app, <- app_assoc.
    rewrite parse_chars_escape_char, IH by lia. reflexivity.
Qed.

Lemma chars_quote (s : string) (r : list ascii) :
  chars (quote s) ++ r = quote_char :: chars (escape s) ++ quote_char :: r.
Proof.
  unfold quote. simpl. rewrite chars_app, <- app_assoc. reflexivity.
Qed.

(** Unfolding equations of the parser on the heads the serializer writes. *)
Lemma parse_value_str (f : nat) (r r' : list ascii) (s : string) :
  parse_chars f r = Some (s, r') ->
  parse_value (S f) (quote_char :: r) = Some (VStr s, r').
Proof. intros H. simpl. rewrite H. reflexivity. Qed.

Lemma parse_value_obj (f : nat) (r : list ascii) :
  parse_value (S f) ("{"%char :: quote_char :: r) =
  parse_members f (quote_char :: r) [].
Proof. reflexivity. Qed.

Lemma parse_members_last
    (f : nat) (r r2 r4 : list ascii) (k : string) (x : value)
    (acc : list (string * value)) :
  parse_chars f r = Some (k, ":"%char :: r2) ->
  parse_value f r2 = Some (x, "}"%char :: r4) ->
  parse_members (S f) (quote_char :: r) acc = Some (VObj (set_field k x acc), r4).
Proof. intros H1 H2. simpl. rewrite H1. simpl. rewrite H2. reflexivity. Qed.

Lemma parse_members_more
    (f : nat) (r r2 r4 : list ascii) (k : string) (x : value)
    (acc : list (string * value)) :
  parse_chars f r = Some (k, ":"%char :: r2) ->
  parse_value f r2 = Some (x, ","%char :: r4) ->
  parse_members (S f) (quote_char :: r) acc =
  parse_members f r4 (set_field k x acc).
Proof. intros H1 H2. simpl. rewrite H1. simpl. rewrite H2. reflexivity. Qed.

Lemma chars_member (k t : string) (r : list ascii) :
  chars (quote k +:+ ":" +:+ t) ++ r =
  quote_char :: chars (escape k) ++ quote_char :: ":"%char :: chars t ++ r.
Proof.
  rewrite chars_app, <- app_assoc, chars_quote.
  reflexivity.
Qed.

Lemma set_field_fresh {A} (k : string) (x : A) (acc : list (string * A)) :
  existsb (String.eqb k) (map fst acc) = false ->
  set_field k x acc = acc ++ [(k, x)].
Proof.
  induction acc as [| [k' x'] acc IH]; simpl; [reflexivity |].
  intros [Hk Hacc]%orb_false_iff. rewrite Hk, (IH Hacc). reflexivity.
Qed.

Lemma need_obj (fs : list (string * value)) :
  need (VObj fs) = S (need_members fs).
Proof.
  unfold need_members. simpl. f_equal.
  induction fs as [| [k x] fs IH]; simpl; [reflexivity |].
  rewrite IH. reflexivity.
Qed.

Lemma need_members_cons (k : string) (x : value) (fs : list (string * value)) :
  need_members ((k, x) :: fs) = 2 + String.length k + need x + need_members fs.
Proof. reflexivity. Qed.

Lemma need_pos (v : value) : 1 <= need v.
Proof. destruct v; simpl; lia. Qed.

Lemma stringify_obj (fs : list (string * value)) :
  stringify (VObj fs) = Some ("{" +:+ join "," (member_texts fs) +:+ "}").
Proof.
  simpl. f_equal. f_equal. f_equal. f_equal.
  induction fs as [| [k x] fs IH]; [reflexivity |].
  unfold member_texts. simpl omap. fold (member_texts fs).
  rewrite IH. destruct (stringify x); reflexivity.
Qed.

Lemma member_texts_cons (k : string) (x : value) (fs : list (string * value)) (t : string) :
  stringify x = Some t ->
  member_texts ((k, x) :: fs) = (quote k +:+ ":" +:+ t) :: member_texts fs.
Proof. intros H. unfold member_texts. simpl. rewrite H. reflexivity. Qed.

(** A value parses back: it has a text, and the parser, given enough fuel,
    reads the value off the front of that text whatever follows. *)
Definition parses_back (v : value) : Prop :=
  is_plain v = true ->
  exists t : string,
    stringify v = Some t /\
    forall (f : nat) (r : list ascii),
      need v <= f -> parse_value f (chars t ++ r) = Some (v, r).

Lemma parse_members_texts (fs : list (string * value)) :
  Forall (fun kv => parses_back kv.2) fs ->
  plain_members fs = true ->
  fs <> [] ->
  forall (acc : list (string * value)) (f : nat) (r : list ascii),
    Forall (fun kv => existsb (String.eqb kv.1) (map fst acc) = false) fs ->
    need_members fs <= f ->
    member_texts fs <> [] /\
    parse_members f (chars (join "," (member_texts fs)) ++ "}"%char :: r) acc =
    Some (VObj (acc ++ fs), r).
Proof.
  induction fs as [| [k x] fs IH]; intros Hpb Hplain Hne acc f r Hfresh Hf;
    [congruence |].
  apply Forall_cons_1 in Hpb as [Hx Hpb].
  apply Forall_cons_1 in Hfresh as [Hk Hfresh].
  simpl in Hx, Hk, Hplain.
  apply andb_true_iff in Hplain as [Hplain Hps].
  apply andb_true_iff in Hplain as [Hnew Hpx].
  apply negb_true_iff in Hnew.
  destruct (Hx Hpx) as (t & Ht & Hparse).
  rewrite (member_texts_cons k x fs t Ht).
  rewrite need_members_cons in Hf.
  pose proof (need_pos x) as Hpos.
  destruct f as [| f]; [lia |].
  split; [discriminate |].
  assert (Hfresh' :
    Forall (fun kv => existsb (String.eqb kv.1) (map fst (acc ++ [(k, x)])) = false) fs).
  { clear -Hfresh Hnew.
    induction fs as [| [k' x'] fs IHfs]; [apply Forall_nil_2 |].
    apply Forall_cons_1 in Hfresh as [Hk' Hfresh].
    simpl in Hnew. apply orb_false_iff in Hnew as [Hkk' Hnew].
    apply Forall_cons_2; [| exact (IHfs Hnew Hfresh)].
    simpl in Hk' |- *. rewrite map_app, existsb_app, Hk'. simpl.
    rewrite String.eqb_sym, Hkk'. reflexivity. }
  destruct fs as [| kv fs].
  - change (member_texts []) with (@nil string).
    change (join "," [quote k +:+ ":" +:+ t]) with (quote k +:+ ":" +:+ t).
    rewrite chars_member.
    rewrite (parse_members_last f _ (chars t ++ "}"%char :: r) r k x acc).
    + rewrite (set_field_fresh _ _ _ Hk). reflexivity.
    + apply parse_chars_escape. lia.
    + apply Hparse. lia.
  - destruct (IH Hpb Hps ltac:(discriminate) (acc ++ [(k, x)]) f r Hfresh')
      as [Hms Hrest]; [lia |].
    destruct (member_texts (kv :: fs)) as [| m ms] eqn:Hm; [congruence |].
    change (join "," ((quote k +:+ ":" +:+ t) :: m :: ms))
      with ((quote k +:+ ":" +:+ t) +:+ "," +:+ join "," (m :: ms)).
    rewrite chars_app, <- app_assoc, chars_member.
    change (chars ("," +:+ join "," (m :: ms)) ++ "}"%char :: r)
      with (","%char :: chars (join "," (m :: ms)) ++ "}"%char :: r).
    rewrite (parse_members_more f _
               (chars t ++ ","%char :: chars (join "," (m :: ms)) ++ "}"%char :: r)
               (chars (join "," (m :: ms)) ++ "}"%char :: r) k x acc).
    + rewrite (set_field_fresh _ _ _ Hk), Hrest, <- app_assoc. reflexivity.
    + apply parse_chars_escape. lia.
    + apply Hparse. lia.
Qed.

Lemma join_quote_head (k u : string) (ms : list string) :
  exists cs : list ascii,
    chars (join "," ((quote k +:+ u) :: ms)) = quote_char :: cs.
Proof. destruct ms; simpl; eexists; reflexivity. Qed.

Lemma all_parse_back (v : value) : parses_back v.
Proof.
  induction v as [| | b | s | fs IH] using value_nested_ind; intros Hplain.
  - discriminate.
  - exists "null". split; [reflexivity |].
    intros [| f] r Hf; [simpl in Hf; lia | reflexivity].
  - exists (if b then "true" else "false"). split; [destruct b; reflexivity |].
    intros [| f] r Hf; [simpl in Hf; lia | destruct b; reflexivity].
  - exists (quote s). split; [reflexivity |].
    intros [| f] r Hf; simpl in Hf; [lia |].
    rewrite chars_quote. apply parse_value_str, parse_chars_escape. lia.
  - exists ("{" +:+ join "," (member_texts fs) +:+ "}").
    split; [apply stringify_obj |].
    intros [| f] r Hf; rewrite need_obj in Hf; [lia |].
    change (chars ("{" +:+ join "," (member_texts fs) +:+ "}") ++ r)
      with ("{"%char :: chars (join "," (member_texts fs) +:+ "}") ++ r).
    rewrite chars_app, <- app_assoc.
    change (chars "}" ++ r) with ("}"%char :: r).
    destruct fs as [| [k x] fs]; [reflexivity |].
    destruct (parse_members_texts ((k, x) :: fs) IH Hplain ltac:(discriminate)
                [] f r) as [_ Hparse].
    + clear. induction fs as [| kv fs IHfs]; repeat constructor.
      apply Forall_cons_1 in IHfs as [_ IHfs]. exact IHfs.
    + lia.
    + apply Forall_cons_1 in IH as [Hx _]. simpl in Hx, Hplain.
      apply andb_true_iff in Hplain as [Hplain _].
      apply andb_true_iff in Hplain as [_ Hpx].
      destruct (Hx Hpx) as (t & Ht & _).
      rewrite (member_texts_cons k x fs t Ht) in Hparse |- *.
      destruct (join_quote_head k (":" +:+ t) (member_texts fs)) as [cs Hcs].
      rewrite Hcs in Hparse |- *.
      change ((quote_char :: cs) ++ "}"%char :: r)
        with (quote_char :: cs ++ "}"%char :: r) in Hparse |- *.
      rewrite parse_value_obj. exact Hparse.
Qed.

Lemma length_escape (s : string) : String.length s <= String.length (escape s).
Proof.
  induction s as [| c s IH]; simpl; [lia |].
  rewrite length_append.
  assert (1 <= String.length (escape_char c))
    by (destruct c as [[] [] [] [] [] [] [] []]; vm_compute; lia).
  lia.
Qed.

Lemma length_join (sep : string) (ms : list string) :
  list_sum (map String.length ms) <= String.length (join sep ms).
Proof.
  induction ms as [| m ms IH]; simpl; [lia |].
  destruct ms as [| m' ms]; [simpl; lia |].
  rewrite !length_append. simpl in IH |- *. lia.
Qed.

(** The fuel [parse] starts with is enough. *)
Lemma need_le (v : value) :
  is_plain v = true ->
  forall t : string, stringify v = Some t -> need v <= S (String.length t).
Proof.
  induction v as [| | b | s | fs IH] using value_nested_ind; intros Hplain t Ht.
  - discriminate.
  - simpl. lia.
  - simpl. lia.
  - injection Ht as <-. unfold quote. simpl.
    rewrite length_append. pose proof (length_escape s). simpl. lia.
  - rewrite stringify_obj in Ht. injection Ht as <-.
    rewrite need_obj, !length_append.
    pose proof (length_join "," (member_texts fs)) as Hjoin.
    enough (need_members fs <= list_sum (map String.length (member_texts fs))) by lia.
    clear Hjoin. change (plain_members fs = true) in Hplain.
    induction fs as [| [k x] fs IHfs]; [vm_compute; lia |].
    apply Forall_cons_1 in IH as [Hx IH]. simpl in Hx, Hplain.
    apply andb_true_iff in Hplain as [Hplain Hps].
    apply andb_true_iff in Hplain as [_ Hpx].
    destruct (all_parse_back x Hpx) as (tx & Htx & _).
    rewrite (member_texts_cons k x fs tx Htx), need_members_cons.
    specialize (Hx Hpx tx Htx). specialize (IHfs IH Hps).
    simpl map. simpl list_sum. unfold quote. simpl String.length.
    rewrite !length_append. pose proof (length_escape k). simpl. lia.
Qed.

(** Parsing the text of plain data gives the data back. *)
Theorem roundtrip_plain (v : value) :
  is_plain v = true -> roundtrip v = Some v.
Proof.
  intros Hplain.
  destruct (all_parse_back v Hplain) as (t & Ht & Hparse).
  unfold roundtrip, parse. rewrite Ht.
  rewrite <- (app_nil_r (chars t)).
  rewrite (Hparse (S (String.length t)) [] (need_le v Hplain t Ht)).
  reflexivity.
Qed.

(** Data that is not plain does not come back: a property holding
    [undefined] is lost on the way. *)
Lemma roundtrip_drops_undefined :
  roundtrip (VObj [("a", VUndefined)]) = Some (VObj []).
Proof. reflexivity. Qed.

End RoundTrip.

(** ** The values of the fields *)

(** C1. Reading [environment.apiServerUrl] returns exactly the string
    ["http://127.0.0.1:5000"], on the literal and in the loaded module. *)
Theorem apiServerUrl_value :
  get_path environment ["apiServerUrl"] = Ok (VStr "http://127.0.0.1:5000") /\
  returned (step load (Read ["apiServerUrl"])).2 = Ok (HStr "http://127.0.0.1:5000").
Proof. split; reflexivity. Qed.

(** C4. Reading [environment.production] returns exactly the boolean
    [false]. *)
Theorem production_value :
  get_path environment ["production"] = Ok (VBool false) /\
  returned (step load (Read ["production"])).2 = Ok (HBool false).
Proof. split; reflexivity. Qed.

(** C5. Reading [environment.auth0.audience] returns exactly the string
    ["coffee_shop"]. *)
Theorem audience_value :
  get_path environment ["auth0"; "audience"] = Ok (VStr "coffee_shop") /\
  returned (step load (Read ["auth0"; "audience"])).2 = Ok (HStr "coffee_shop").
Proof. split; reflexivity. Qed.

(** C9. The other three fields of [auth0] hold fixed literals: [url] is
    ["dev-6wikmw4d.us.auth0.com"], [clientId] is
    ["I0sxOj09Gcl40n2FYKcZZuiN0HA9US1b"] and [callbackURL] is
    ["http://localhost:8100"]. *)
Theorem auth0_literals :
  get_path environment ["auth0"; "url"] = Ok (VStr "dev-6wikmw4d.us.auth0.com") /\
  get_path environment ["auth0"; "clientId"]
    = Ok (VStr "I0sxOj09Gcl40n2FYKcZZuiN0HA9US1b") /\
  get_path environment ["auth0"; "callbackURL"] = Ok (VStr "http://localhost:8100").
Proof. repeat split. Qed.

(** ** Shape *)

(** C2. The exported constant has exactly the declared shape: it conforms
    to [EnvironmentConfig] property for property with no other property,
    the type inferred from the literal is [EnvironmentConfig], and every
    declared field reads as a value that is neither [null] nor [undefined],
    whose [typeof] is the declared one and which conforms to the declared
    type.  The declared fields are [production : boolean],
    [apiServerUrl : string], the record [auth0] and its four string fields
    [url], [audience], [clientId], [callbackURL]. *)
Theorem environment_shape :
  has_type environment EnvironmentConfig = true /\
  infer environment = Some EnvironmentConfig /\
  declared EnvironmentConfig =
    [ (["production"], TBoolean);
      (["apiServerUrl"], TString);
      (["auth0"],
        TObject [("url", TString); ("audience", TString);
                 ("clientId", TString); ("callbackURL", TString)]);
      (["auth0"; "url"], TString);
      (["auth0"; "audience"], TString);
      (["auth0"; "clientId"], TString);
      (["auth0"; "callbackURL"], TString) ] /\
  Forall
    (fun '(p, t) =>
       exists v : value,
         get_path environment p = Ok v /\
         is_nullish v = false /\
         typeof v = type_name t /\
         has_type v t = true)
    (declared EnvironmentConfig).
Proof.
  split; [reflexivity |]. split; [reflexivity |]. split; [reflexivity |].
  vm_compute declared.
  repeat (apply Forall_cons_2; [eexists; repeat split |]).
  apply Forall_nil_2.
Qed.

(** C3. Every string field of the exported constant, namely
    [apiServerUrl], [auth0.url], [auth0.audience], [auth0.clientId] and
    [auth0.callbackURL], is present and holds a non-empty string. *)
Theorem string_fields_nonempty :
  map fst (string_fields environment) =
    [ ["apiServerUrl"]; ["auth0"; "url"]; ["auth0"; "audience"];
      ["auth0"; "clientId"]; ["auth0"; "callbackURL"] ] /\
  Forall
    (fun '(p, s) =>
       get_path environment p = Ok (VStr s) /\
       s <> "" /\ 0 < String.length s)
    (string_fields environment).
Proof.
  split; [reflexivity |].
  vm_compute string_fields.
  repeat (apply Forall_cons_2;
          [split; [reflexivity | split; [discriminate | cbn; lia]] |]).
  apply Forall_nil_2.
Qed.

(** C10. [auth0.url] is a bare domain with no URL scheme: it starts with
    neither ["http://"] nor ["https://"] (it is made of host-name
    characters only).  [apiServerUrl] and [auth0.callbackURL] are absolute
    URLs: they start with ["http://"] and do not end with a slash. *)
Theorem url_forms :
  (exists d : string,
      get_path environment ["auth0"; "url"] = Ok (VStr d) /\
      startsWith d "http://" = false /\
      startsWith d "https://" = false /\
      has_scheme d = false /\
      is_bare_domain d = true) /\
  Forall
    (fun p =>
       exists u : string,
         get_path environment p = Ok (VStr u) /\
         startsWith u "http://" = true /\
         endsWith u "/" = false)
    [ ["apiServerUrl"]; ["auth0"; "callbackURL"] ].
Proof.
  split.
  - eexists. repeat split.
  - repeat (apply Forall_cons_2; [eexists; repeat split |]).
    apply Forall_nil_2.
Qed.

(** ** Serialization *)

(** C6. Serializing the exported constant to JSON text and parsing that
    text back succeeds and yields a value deep-equal to the constant; the
    value parsed is the constant itself. *)
Theorem environment_roundtrip :
  exists (s : string) (v : value),
    stringify environment = Some s /\
    parse s = Some v /\
    deep_equal v environment = true /\
    v = environment.
Proof.
  eexists. exists environment.
  split; [reflexivity |].
  split; [vm_compute; reflexivity |].
  split; reflexivity.
Qed.

(** ** Reads in a running process *)

(** C7. Any two reads of the exported constant in one process return the
    identical value.  Whatever the consumers did in between, the two reads
    return the same reference; and when the trace keeps the read-only
    contract (the source file itself holds no assignment), two reads of
    the same member chain make the same observation, reference and
    contents alike. *)
Theorem reads_identical
    (tr : list (consumer * action)) (p : list string)
    (i j : nat) (c1 c2 : consumer) (o1 o2 : observation) :
  tr !! i = Some (c1, Read p) ->
  tr !! j = Some (c2, Read p) ->
  (run load tr).2 !! i = Some o1 ->
  (run load tr).2 !! j = Some o2 ->
  (p = [] -> returned o1 = Ok (binding load) /\ returned o1 = returned o2) /\
  (read_only tr = true -> o1 = o2).
Proof.
  intros Hi Hj H1 H2.
  destruct (run_lookup tr load i c1 (Read p) Hi) as (s1 & E1 & B1 & R1).
  destruct (run_lookup tr load j c2 (Read p) Hj) as (s2 & E2 & B2 & R2).
  rewrite H1 in E1. rewrite H2 in E2.
  injection E1 as ->. injection E2 as ->.
  split.
  - intros ->. simpl. rewrite B1, B2. split; reflexivity.
  - intros Hro. rewrite (R1 Hro), (R2 Hro). reflexivity.
Qed.

Lemma reads_identical_witness :
  exists o1 o2 : observation,
    (run load [(0, Read []); (1, Read ["auth0"]); (2, Read [])]).2 !! 0 = Some o1 /\
    (run load [(0, Read []); (1, Read ["auth0"]); (2, Read [])]).2 !! 2 = Some o2 /\
    returned o1 = returned o2 /\ o1 = o2.
Proof.
  eexists. eexists.
  split; [reflexivity |]. split; [reflexivity |].
  destruct (reads_identical
              [(0, Read []); (1, Read ["auth0"]); (2, Read [])] [] 0 2 0 2 _ _
              eq_refl eq_refl eq_refl eq_refl) as [Href Hobs].
  split; [exact (proj2 (Href eq_refl)) | exact (Hobs eq_refl)].
Defined.

(** C8. Reading the configuration has no error condition.  Loading
    evaluates to a module instance, and for every consumer and every trace
    a read of the constant yields an observation whose result is an object
    reference, never an exception and never an absent value.  Under the
    read-only contract every read of a member chain of the literal returns
    normally, and what it returns is the value the literal has there,
    neither [null] nor [undefined]; for the constant itself that is the
    whole populated configuration. *)
Theorem read_never_fails
    (tr : list (consumer * action)) (p : list string) (i : nat) (c : consumer) :
  p ∈ paths environment ->
  tr !! i = Some (c, Read p) ->
  exists o : observation,
    (run load tr).2 !! i = Some o /\
    (p = [] -> exists l : loc, returned o = Ok (HRef l)) /\
    (read_only tr = true ->
       exists (hv : hval) (v : value),
         returned o = Ok hv /\
         seen o = Some v /\
         get_path environment p = Ok v /\
         is_nullish v = false /\
         (p = [] -> v = environment)).
Proof.
  intros Hp Hi.
  destruct (run_lookup tr load i c (Read p) Hi) as (st & E & B & R).
  eexists. split; [exact E |]. split.
  - intros ->. simpl. rewrite B. eexists. reflexivity.
  - intros Hro. rewrite (R Hro). clear -Hp.
    vm_compute paths in Hp.
    repeat (apply elem_of_cons in Hp; destruct Hp as [-> | Hp];
            [ eexists; eexists;
              split; [reflexivity |];
              split; [vm_compute; reflexivity |];
              split; [reflexivity |];
              split; [reflexivity |];
              intros Hnil; first [reflexivity | discriminate Hnil] |]).
    apply elem_of_nil in Hp. destruct Hp.
Qed.

Lemma read_never_fails_witness :
  exists (o : observation) (l : loc),
    (run load [(7, Read ["auth0"; "url"]); (3, Read [])]).2 !! 1 = Some o /\
    returned o = Ok (HRef l) /\
    seen o = Some environment.
Proof.
  destruct (read_never_fails
              [(7, Read ["auth0"; "url"]); (3, Read [])] [] 1 3)
    as (o & Ho & Hb & Hr).
  - vm_compute. left.
  - reflexivity.
  - destruct (Hb eq_refl) as [l Hl].
    destruct (Hr eq_refl) as (hv & v & _ & Hs & _ & _ & Hv).
    exists o, l. rewrite Hs, (Hv eq_refl). auto.
Defined.

(** ** Outside the contract *)

(** The object is not frozen.  An assignment by a consumer that breaks the
    read-only contract leaves the reference as it was and changes what is
    seen behind it. *)
Lemma assignment_is_visible :
  exists o1 o2 : observation,
    (run load [(0, Read []); (1, Assign ["auth0"] "url" HUndefined);
               (0, Read [])]).2 !! 0 = Some o1 /\
    (run load [(0, Read []); (1, Assign ["auth0"] "url" HUndefined);
               (0, Read [])]).2 !! 2 = Some o2 /\
    returned o1 = returned o2 /\
    seen o1 = Some environment /\
    seen o2 <> Some environment.
Proof.
  eexists. eexists.
  split; [reflexivity |]. split; [reflexivity |].
  split; [reflexivity |]. split; [reflexivity |].
  vm_compute. discriminate.
Qed.
